(** * Object-file abstraction of the gem5 loader (base/loader/object_file.hh)

    Shallow embedding of class [ObjectFile]: its data members, the inline
    members defined in the header (segment queries, the panicking
    relocatable-only defaults, [loadWeakSymbols]), and the out-of-line
    entry points [loadSegments], [tryLoaders] and [createObjectFile]. *)

From Stdlib Require Import ZArith List String Bool Lia Permutation.
Import ListNotations.
Open Scope Z_scope.

(** ** Machine types *)

(** [Addr] is gem5's [uint64_t]; [size_t] is 64 bits wide as well.
    Unsigned arithmetic wraps modulo [2^64]. *)
Definition Addr := Z.
Definition addrWidth : Z := 64.
Definition wrap (z : Z) : Addr := z mod 2 ^ addrWidth.

(** [static const Addr maxAddr = std::numeric_limits<Addr>::max();] *)
Definition maxAddr : Addr := 2 ^ addrWidth - 1.

Definition byte := Byte.byte.

(** ** Enumerations *)

Inductive Arch :=
| UnknownArch | Alpha | SPARC64 | SPARC32 | Mips | X86_64 | I386
| Arm64 | Arm | Thumb | Power | Riscv64 | Riscv32.

Inductive OpSys :=
| UnknownOpSys | Tru64 | Linux | Solaris | LinuxArmOABI | FreeBSD.

(** ** [struct Segment] *)

Record Segment := mkSegment {
  name : string;
  base : Addr;
  data : list byte;   (** bytes reachable through [uint8_t *data] *)
  size : Z            (** [size_t size] *)
}.

(** The [size] bytes that [data] points to. *)
Definition segBytes (seg : Segment) : list byte :=
  firstn (Z.to_nat (size seg)) (data seg).

(** ** Data members of [ObjectFile] *)

Record ObjectFile := mkObjectFile {
  filename : string;
  fileData : list byte;
  len : Z;
  loadOffset : Addr;
  loadMask : Addr;
  arch : Arch;
  opSys : OpSys;
  entry : Addr;
  segments : list Segment
}.

(** [ObjectFile(_filename, _len, _data, _arch, _opSys)]: the default
    member initialisers give [loadOffset = 0] and [loadMask = maxAddr];
    the segment vector starts empty.  [entry] is left uninitialised by
    the constructor; it is modelled as 0. *)
Definition newObjectFile (fname : string) (l : Z) (d : list byte)
    (a : Arch) (os : OpSys) : ObjectFile :=
  {| filename := fname; fileData := d; len := l;
     loadOffset := 0; loadMask := maxAddr;
     arch := a; opSys := os; entry := 0; segments := [] |}.

Definition getArch (o : ObjectFile) : Arch := arch o.
Definition getOpSys (o : ObjectFile) : OpSys := opSys o.
Definition entryPoint (o : ObjectFile) : Addr := entry o.

Definition setSegments (o : ObjectFile) (s : list Segment) : ObjectFile :=
  {| filename := filename o; fileData := fileData o; len := len o;
     loadOffset := loadOffset o; loadMask := loadMask o;
     arch := arch o; opSys := opSys o; entry := entry o; segments := s |}.

(** [void addSegment(name, base, data, size)]: [segments.emplace_back]. *)
Definition addSegment (o : ObjectFile) (nm : string) (b : Addr)
    (d : list byte) (sz : Z) : ObjectFile :=
  setSegments o (segments o ++ [mkSegment nm b d sz]).

(** [void setLoadOffset(Addr val) { loadOffset = val; }] *)
Definition setLoadOffset (o : ObjectFile) (val : Addr) : ObjectFile :=
  {| filename := filename o; fileData := fileData o; len := len o;
     loadOffset := val; loadMask := loadMask o;
     arch := arch o; opSys := opSys o; entry := entry o;
     segments := segments o |}.

(** [void setLoadMask(Addr val) { loadMask = val; }] *)
Definition setLoadMask (o : ObjectFile) (val : Addr) : ObjectFile :=
  {| filename := filename o; fileData := fileData o; len := len o;
     loadOffset := loadOffset o; loadMask := val;
     arch := arch o; opSys := opSys o; entry := entry o;
     segments := segments o |}.

(** ** Segment address queries (inline in the header) *)

(** [maxSegmentAddr]: [Addr max = 0; for (seg) { Addr end = seg->base +
    seg->size; if (end > max) max = end; } return max;] *)
Definition maxSegmentAddr (o : ObjectFile) : Addr :=
  fold_left (fun max seg =>
               let end_ := wrap (base seg + size seg) in
               if max <? end_ then end_ else max)
            (segments o) 0.

(** [minSegmentAddr]: [Addr min = maxAddr; for (seg) if (seg->base < min)
    min = seg->base; return min;] *)
Definition minSegmentAddr (o : ObjectFile) : Addr :=
  fold_left (fun min seg => if base seg <? min then base seg else min)
            (segments o) maxAddr.

(** The loop of [contains]. *)
Fixpoint containsIn (segs : list Segment) (addr : Addr) : bool :=
  match segs with
  | [] => false
  | seg :: rest =>
      let start := base seg in
      let end_ := wrap (base seg + size seg) in
      if (start <=? addr) && (addr <? end_) then true
      else containsIn rest addr
  end.

Definition contains (o : ObjectFile) (addr : Addr) : bool :=
  containsIn (segments o) addr.

(** A segment as a table written by a parser holds: 64-bit base and size. *)
Definition wfSegment (seg : Segment) : Prop :=
  0 <= base seg <= maxAddr /\ 0 <= size seg <= maxAddr.

(** ** Outcomes: normal return, reported failure, or [panic()] *)

Inductive Outcome (A : Type) :=
| Ok (a : A)
| Failure (msg : string)   (** failure reported to the caller *)
| Panic (msg : string).    (** [panic(...)]: the simulator aborts *)
Arguments Ok {A} a.
Arguments Failure {A} msg.
Arguments Panic {A} msg.

Definition isPanic {A} (r : Outcome A) : bool :=
  match r with Panic _ => true | _ => false end.

(** ** Symbol table collaborator: [insert(name, address)] appends. *)

Definition SymbolTable := list (string * Addr).

(** ** Virtual members and their overrides

    A subclass of [ObjectFile] may override the virtual members; [None]
    means the subclass keeps the base-class body from the header. *)

Record ObjectFileClass := mkClass {
  ov_loadWeakSymbols :
    option (ObjectFile -> SymbolTable -> Addr -> Addr -> Addr ->
            bool * SymbolTable * ObjectFile);
  ov_relocatable : option (ObjectFile -> bool);
  ov_mapSize : option (ObjectFile -> Addr);
  ov_updateBias : option (ObjectFile -> Addr -> ObjectFile);
  ov_bias : option (ObjectFile -> Addr);
  ov_hasTLS : option (ObjectFile -> bool)
}.

(** The class that overrides none of them. *)
Definition baseClass : ObjectFileClass :=
  mkClass None None None None None None.

(** [virtual bool loadWeakSymbols(...) { return false; }] *)
Definition loadWeakSymbols (cls : ObjectFileClass) (o : ObjectFile)
    (symtab : SymbolTable) (b offset mask : Addr)
    : bool * SymbolTable * ObjectFile :=
  match ov_loadWeakSymbols cls with
  | Some f => f o symtab b offset mask
  | None => (false, symtab, o)
  end.

(** [virtual bool relocatable() const { return false; }] *)
Definition relocatable (cls : ObjectFileClass) (o : ObjectFile) : bool :=
  match ov_relocatable cls with Some f => f o | None => false end.

Definition mapSizeMsg : string :=
  "mapSize() should only be called on relocatable objects".
Definition updateBiasMsg : string :=
  "updateBias() should only be called on relocatable objects".

(** [virtual Addr mapSize() const { panic(...); }] *)
Definition mapSize (cls : ObjectFileClass) (o : ObjectFile) : Outcome Addr :=
  match ov_mapSize cls with
  | Some f => Ok (f o)
  | None => Panic mapSizeMsg
  end.

(** [virtual void updateBias(Addr bias_addr) { panic(...); }] *)
Definition updateBias (cls : ObjectFileClass) (o : ObjectFile)
    (bias_addr : Addr) : Outcome ObjectFile :=
  match ov_updateBias cls with
  | Some f => Ok (f o bias_addr)
  | None => Panic updateBiasMsg
  end.

(** [virtual Addr bias() const { return 0; }] *)
Definition bias (cls : ObjectFileClass) (o : ObjectFile) : Addr :=
  match ov_bias cls with Some f => f o | None => 0 end.

(** [virtual bool hasTLS() { return false; }] *)
Definition hasTLS (cls : ObjectFileClass) (o : ObjectFile) : bool :=
  match ov_hasTLS cls with Some f => f o | None => false end.

(** ** [loadSegments] *)

Section LoadSegments.

(** The memory sink ([PortProxy]): [write(address, bytes)] accepts or
    rejects a block and updates the sink's state. *)
Variable Sink : Type.
Variable write : Sink -> Addr -> list byte -> bool * Sink.

(** The address at which a segment is placed. *)
Definition loadAddr (o : ObjectFile) (seg : Segment) : Addr :=
  Z.land (wrap (base seg + loadOffset o)) (loadMask o).

(** Modelled from the spec: the body of [ObjectFile::loadSegment]
    (declared in the header, defined in object_file.cc) writes the
    segment's bytes at [(seg->base + loadOffset) & loadMask] and reports
    whether the sink accepted them. *)
Definition loadSegment (o : ObjectFile) (seg : Segment) (mem : Sink)
    : bool * Sink :=
  write mem (loadAddr o seg) (segBytes seg).

(** Modelled from the spec: the body of [ObjectFile::loadSegments] loads
    every segment in order and returns [false] as soon as one is
    rejected; a rejection is a result, not an abort. *)
Fixpoint loadSegmentsFrom (o : ObjectFile) (segs : list Segment)
    (mem : Sink) : bool * Sink :=
  match segs with
  | [] => (true, mem)
  | seg :: rest =>
      let (ok, mem') := loadSegment o seg mem in
      if ok then loadSegmentsFrom o rest mem' else (false, mem')
  end.

Definition loadSegments (o : ObjectFile) (mem : Sink) : bool * Sink :=
  loadSegmentsFrom o (segments o) mem.

End LoadSegments.

(** A sink that records every accepted write; [accept addr n] says whether
    the range of [n] bytes at [addr] is backed. *)
Definition RecordingSink := list (Addr * list byte).

Definition recordWrite (accept : Addr -> nat -> bool) (s : RecordingSink)
    (a : Addr) (bytes : list byte) : bool * RecordingSink :=
  if accept a (List.length bytes) then (true, s ++ [(a, bytes)]) else (false, s).

(** ** Loader registry and [tryLoaders] *)

Section Loaders.

Variables Process ProcessParams : Type.

(** What [Loader::load] can do: decline silently (return [nullptr]),
    accept with a created [Process], or fail non-silently. *)
Inductive LoadResult :=
| Declined
| Accepted (p : Process)
| LoadError (msg : string).

Definition Loader := ProcessParams -> ObjectFile -> LoadResult.

Definition noLoaderMsg : string := "no compatible loader".

(** Modelled from the spec: the body of [ObjectFile::tryLoaders]
    (object_file.cc); the registry is walked in registration order and
    the index of every loader invoked is logged. *)
Fixpoint tryLoadersFrom (i : nat) (reg : list Loader)
    (params : ProcessParams) (obj_file : ObjectFile) (log : list nat)
    : Outcome Process * list nat :=
  match reg with
  | [] => (Failure noLoaderMsg, log)
  | loader :: rest =>
      let log' := log ++ [i] in
      match loader params obj_file with
      | Accepted p => (Ok p, log')
      | Declined => tryLoadersFrom (S i) rest params obj_file log'
      | LoadError m => (Panic m, log')
      end
  end.

Definition tryLoaders (reg : list Loader) (params : ProcessParams)
    (obj_file : ObjectFile) : Outcome Process * list nat :=
  tryLoadersFrom 0 reg params obj_file [].

End Loaders.

Arguments Declined {Process}.
Arguments Accepted {Process} p.
Arguments LoadError {Process} msg.

(** ** [createObjectFile] *)

(** A format parser: a magic test on the header bytes and a full parse. *)
Record Format := mkFormat {
  fmt_magic : list byte -> bool;
  fmt_parse : string -> list byte -> option ObjectFile
}.

(** Modelled from the spec: the raw-blob object (object_file.cc): arch and
    OS unknown, one segment covering the whole buffer at address 0. *)
Definition rawObject (fname : string) (d : list byte) : ObjectFile :=
  let l := Z.of_nat (List.length d) in
  addSegment (newObjectFile fname l d UnknownArch UnknownOpSys)
             "data" 0 d l.

(** Modelled from the spec: format detection in fixed priority order; the
    first matching magic commits to that format. *)
Fixpoint detectFormat (formats : list Format) (fname : string)
    (d : list byte) : Outcome ObjectFile :=
  match formats with
  | [] => Failure "unrecognized format"
  | f :: rest =>
      if fmt_magic f d then
        match fmt_parse f fname d with
        | Some o => Ok o
        | None => Failure "malformed object file"
        end
      else detectFormat rest fname d
  end.

(** Modelled from the spec: [createObjectFile(fname, raw)] on the bytes
    read from [fname]. *)
Definition createObjectFile (formats : list Format) (fname : string)
    (d : list byte) (raw : bool) : Outcome ObjectFile :=
  if raw then Ok (rawObject fname d) else detectFormat formats fname d.

(** ** The member functions of the base class as operations on an object

    Each public member (and [addSegment]) as a step on the object's state;
    members that only return a value leave the object as it is, and a
    [panic] ends the run. *)

Inductive ObjectFileOp :=
| OpLoadSegments
| OpLoadWeakSymbols (symtab : SymbolTable) (b offset mask : Addr)
| OpGetInterpreter
| OpRelocatable
| OpMapSize
| OpUpdateBias (bias_addr : Addr)
| OpBias
| OpHasTLS
| OpGetArch
| OpGetOpSys
| OpEntryPoint
| OpMaxSegmentAddr
| OpMinSegmentAddr
| OpContains (addr : Addr)
| OpSetLoadOffset (val : Addr)
| OpSetLoadMask (val : Addr)
| OpAddSegment (nm : string) (b : Addr) (d : list byte) (sz : Z).

Definition execOp (cls : ObjectFileClass) (op : ObjectFileOp)
    (o : ObjectFile) : Outcome ObjectFile :=
  match op with
  | OpLoadSegments => Ok o   (** [loadSegments] reads [o], writes the sink *)
  | OpLoadWeakSymbols symtab b off mask =>
      let '(_, _, o') := loadWeakSymbols cls o symtab b off mask in Ok o'
  | OpMapSize =>
      match mapSize cls o with
      | Panic m => Panic m
      | Failure m => Failure m
      | Ok _ => Ok o
      end
  | OpUpdateBias a => updateBias cls o a
  | OpSetLoadOffset v => Ok (setLoadOffset o v)
  | OpSetLoadMask v => Ok (setLoadMask o v)
  | OpAddSegment nm b d sz => Ok (addSegment o nm b d sz)
  | OpGetInterpreter | OpRelocatable | OpBias | OpHasTLS | OpGetArch
  | OpGetOpSys | OpEntryPoint | OpMaxSegmentAddr | OpMinSegmentAddr
  | OpContains _ => Ok o
  end.

Fixpoint runOps (cls : ObjectFileClass) (ops : list ObjectFileOp)
    (o : ObjectFile) : Outcome ObjectFile :=
  match ops with
  | [] => Ok o
  | op :: rest =>
      match execOp cls op o with
      | Ok o' => runOps cls rest o'
      | Failure m => Failure m
      | Panic m => Panic m
      end
  end.

(** ** Concrete inputs *)

Definition oneSegmentObject (segs : list Segment) : ObjectFile :=
  setSegments (newObjectFile "a.out" 0 [] UnknownArch UnknownOpSys) segs.

Example maxSegmentAddr_two :
  maxSegmentAddr (oneSegmentObject
    [mkSegment "text" 16 [] 8; mkSegment "data" 64 [] 4]) = 68.
Proof. reflexivity. Qed.

Example minSegmentAddr_two :
  minSegmentAddr (oneSegmentObject
    [mkSegment "text" 16 [] 8; mkSegment "data" 64 [] 4]) = 16.
Proof. reflexivity. Qed.

Example contains_edges :
  map (contains (oneSegmentObject [mkSegment "text" 16 [] 8]))
      [15; 16; 23; 24] = [false; true; true; false].
Proof. reflexivity. Qed.

(** [createObjectFile("blob.bin", [0x10,0x20,0x30], raw = true)] and a
    [loadSegments] onto a recording sink that accepts everything. *)
Example blob_load :
  match createObjectFile [] "blob.bin" [Byte.x10; Byte.x20; Byte.x30] true with
  | Ok o => loadSegments _ (recordWrite (fun _ _ => true)) o []
  | _ => (false, [])
  end = (true, [(0, [Byte.x10; Byte.x20; Byte.x30])]).
Proof. reflexivity. Qed.

(** * Properties *)

(** ** Helper lemmas *)

Lemma wrap_range (z : Z) : 0 <= wrap z <= maxAddr.
Proof.
  unfold wrap, maxAddr, addrWidth.
  pose proof (Z.mod_pos_bound z (2 ^ 64) ltac:(lia)). lia.
Qed.

Lemma minSegmentAddr_fold_le (segs : list Segment) (m : Addr) :
  fold_left (fun min seg => if base seg <? min then base seg else min) segs m
    <= m /\
  (forall seg, In seg segs ->
   fold_left (fun min seg => if base seg <? min then base seg else min)
             segs m <= base seg).
Proof.
  revert m; induction segs as [|s rest IH]; intros m; simpl.
  - split; [lia | intros _ []].
  - destruct (Z.ltb_spec (base s) m) as [Hlt|Hge].
    + destruct (IH (base s)) as [H1 H2]. split; [lia|].
      intros seg [<-|Hin]; [lia | auto].
    + destruct (IH m) as [H1 H2]. split; [lia|].
      intros seg [<-|Hin]; [lia | auto].
Qed.

Lemma maxSegmentAddr_fold_ge (segs : list Segment) (m : Addr) :
  m <= fold_left (fun max seg =>
                    if max <? wrap (base seg + size seg)
                    then wrap (base seg + size seg) else max) segs m /\
  (forall seg, In seg segs ->
   wrap (base seg + size seg) <=
   fold_left (fun max seg =>
                if max <? wrap (base seg + size seg)
                then wrap (base seg + size seg) else max) segs m).
Proof.
  revert m; induction segs as [|s rest IH]; intros m; simpl.
  - split; [lia | intros _ []].
  - destruct (Z.ltb_spec m (wrap (base s + size s))) as [Hlt|Hge].
    + destruct (IH (wrap (base s + size s))) as [H1 H2]. split; [lia|].
      intros seg [<-|Hin]; [lia | auto].
    + destruct (IH m) as [H1 H2]. split; [lia|].
      intros seg [<-|Hin]; [lia | auto].
Qed.

Lemma containsIn_spec (segs : list Segment) (addr : Addr) :
  containsIn segs addr = true <->
  exists seg, In seg segs /\ base seg <= addr < wrap (base seg + size seg).
Proof.
  induction segs as [|s rest IH]; simpl.
  - split; [discriminate | intros (seg & [] & _)].
  - destruct (Z.leb_spec (base s) addr), (Z.ltb_spec addr (wrap (base s + size s)));
      simpl.
    + split; [intros _; exists s; split; [left; reflexivity | lia] | reflexivity].
    + rewrite IH. split; intros (seg & Hin & Hr).
      * exists seg; auto.
      * destruct Hin as [<-|Hin]; [lia | exists seg; auto].
    + rewrite IH. split; intros (seg & Hin & Hr).
      * exists seg; auto.
      * destruct Hin as [<-|Hin]; [lia | exists seg; auto].
    + rewrite IH. split; intros (seg & Hin & Hr).
      * exists seg; auto.
      * destruct Hin as [<-|Hin]; [lia | exists seg; auto].
Qed.

Lemma containsIn_skip (pre post : list Segment) (seg : Segment) (addr : Addr) :
  ((base seg <=? addr) && (addr <? wrap (base seg + size seg)))%bool = false ->
  containsIn (pre ++ seg :: post) addr = containsIn (pre ++ post) addr.
Proof.
  intros Hf; induction pre as [|s rest IH]; simpl.
  - rewrite Hf. reflexivity.
  - rewrite IH. reflexivity.
Qed.

Lemma loadSegmentsFrom_record (accept : Addr -> nat -> bool) (o : ObjectFile)
    (segs : list Segment) (s : RecordingSink) :
  let ws := map (fun seg => (Z.land (wrap (base seg + loadOffset o)) (loadMask o),
                             segBytes seg)) segs in
  (forallb (fun w => accept (fst w) (List.length (snd w))) ws = true ->
   loadSegmentsFrom _ (recordWrite accept) o segs s = (true, s ++ ws)) /\
  (forallb (fun w => accept (fst w) (List.length (snd w))) ws = false ->
   exists s', loadSegmentsFrom _ (recordWrite accept) o segs s = (false, s')).
Proof.
  revert s; induction segs as [|seg rest IH]; intros s;
    cbn [loadSegmentsFrom map forallb].
  - split; [intros _; rewrite app_nil_r; reflexivity | discriminate].
  - unfold loadSegment, loadAddr.
    assert (Hw : forall s a b, recordWrite accept s a b =
              if accept a (List.length b) then (true, s ++ [(a, b)])
              else (false, s)) by reflexivity.
    rewrite Hw. cbn [fst snd].
    destruct (accept (Z.land (wrap (base seg + loadOffset o)) (loadMask o))
                     (List.length (segBytes seg))); cbn [andb].
    + destruct (IH (s ++ [(Z.land (wrap (base seg + loadOffset o)) (loadMask o),
                           segBytes seg)])) as [H1 H2].
      split.
      * intros H. etransitivity; [apply (H1 H)|].
        rewrite <- app_assoc. reflexivity.
      * intros H. apply (H2 H).
    + split; [discriminate | intros _; eexists; reflexivity].
Qed.

Lemma tryLoadersFrom_accept {Process Params : Type}
    (pre : list (Loader Process Params)) (l : Loader Process Params)
    (post : list (Loader Process Params)) (params : Params) (o : ObjectFile)
    (p : Process) (i : nat) (log : list nat) :
  Forall (fun ld => ld params o = Declined) pre ->
  l params o = Accepted p ->
  tryLoadersFrom _ _ i (pre ++ l :: post) params o log =
    (Ok p, log ++ seq i (S (List.length pre))).
Proof.
  intros Hpre Hl; revert i log; induction Hpre as [|ld rest Hd _ IH];
    intros i log; simpl.
  - rewrite Hl. reflexivity.
  - rewrite Hd, IH. simpl. rewrite <- app_assoc. reflexivity.
Qed.

Lemma tryLoadersFrom_decline {Process Params : Type}
    (reg : list (Loader Process Params)) (params : Params) (o : ObjectFile)
    (i : nat) (log : list nat) :
  Forall (fun ld => ld params o = Declined) reg ->
  tryLoadersFrom _ _ i reg params o log =
    (Failure noLoaderMsg, log ++ seq i (List.length reg)).
Proof.
  intros Hreg; revert i log; induction Hreg as [|ld rest Hd _ IH];
    intros i log; simpl.
  - rewrite app_nil_r. reflexivity.
  - rewrite Hd, IH. simpl. rewrite <- app_assoc. reflexivity.
Qed.

Lemma wrap_overflow (z : Z) : 2 ^ addrWidth <= z < 2 * 2 ^ addrWidth ->
  wrap z = z - 2 ^ addrWidth.
Proof.
  intros Hz. unfold wrap. symmetry. apply Z.mod_unique with 1; unfold addrWidth in *; lia.
Qed.

(** ** C1 *)

(** C1: on a sink that records what it accepts, [loadSegments] writes the
    bytes of every segment, in order, at [(base + loadOffset) & loadMask]
    and returns [true] when every write is accepted; when some segment's
    range is rejected it returns the result [false] (no abort). *)
Theorem loadSegments_writes_transformed (accept : Addr -> nat -> bool)
    (o : ObjectFile) (s : RecordingSink) :
  let ws := map (fun seg => (Z.land (wrap (base seg + loadOffset o)) (loadMask o),
                             segBytes seg)) (segments o) in
  (forallb (fun w => accept (fst w) (List.length (snd w))) ws = true ->
   loadSegments _ (recordWrite accept) o s = (true, s ++ ws)) /\
  (forallb (fun w => accept (fst w) (List.length (snd w))) ws = false ->
   exists s', loadSegments _ (recordWrite accept) o s = (false, s')).
Proof. apply loadSegmentsFrom_record. Qed.

Definition twoSegments : ObjectFile :=
  setLoadOffset (oneSegmentObject
    [mkSegment "text" 16 [Byte.x01; Byte.x02] 2;
     mkSegment "data" 4096 [Byte.x03] 1]) 256.

Lemma loadSegments_writes_transformed_witness :
  loadSegments _ (recordWrite (fun _ _ => true)) twoSegments [] =
    (true, [(272, [Byte.x01; Byte.x02]); (4352, [Byte.x03])]) /\
  fst (loadSegments _ (recordWrite (fun a _ => a <? 4096)) twoSegments [])
    = false.
Proof.
  split.
  - apply (proj1 (loadSegments_writes_transformed (fun _ _ => true)
                    twoSegments [])). vm_compute. reflexivity.
  - destruct (proj2 (loadSegments_writes_transformed (fun a _ => a <? 4096)
                       twoSegments []) ltac:(vm_compute; reflexivity))
      as [s' Hs]. rewrite Hs. reflexivity.
Defined.

(** ** C2 *)

(** C2: [tryLoaders] invokes the loaders in registration order; when all
    loaders before [l] decline and [l] accepts with [p], it returns [p]
    and has invoked exactly the loaders up to [l] (none after it); when
    every loader declines it fails with "no compatible loader" after
    invoking each of them once. *)
Theorem tryLoaders_first_accepting {Process Params : Type}
    (params : Params) (o : ObjectFile) :
  (forall (pre : list (Loader Process Params)) l post p,
     Forall (fun ld => ld params o = Declined) pre ->
     l params o = Accepted p ->
     tryLoaders _ _ (pre ++ l :: post) params o =
       (Ok p, seq 0 (S (List.length pre)))) /\
  (forall reg : list (Loader Process Params),
     Forall (fun ld => ld params o = Declined) reg ->
     tryLoaders _ _ reg params o =
       (Failure noLoaderMsg, seq 0 (List.length reg))).
Proof.
  split.
  - intros pre l post p Hpre Hl. apply (tryLoadersFrom_accept pre l post _ _ p 0 [] Hpre Hl).
  - intros reg Hreg. apply (tryLoadersFrom_decline reg _ _ 0 [] Hreg).
Qed.

(** Registry [A (declines); B (accepts, P1); C (accepts, P2)]. *)
Definition loaderA : Loader nat unit := fun _ _ => Declined.
Definition loaderB : Loader nat unit := fun _ _ => Accepted 1%nat.
Definition loaderC : Loader nat unit := fun _ _ => Accepted 2%nat.

Lemma tryLoaders_first_accepting_witness :
  tryLoaders _ _ ([loaderA] ++ loaderB :: [loaderC]) tt twoSegments
    = (Ok 1%nat, [0%nat; 1%nat]) /\
  tryLoaders _ _ [loaderA; loaderA] tt twoSegments
    = (Failure noLoaderMsg, [0%nat; 1%nat]).
Proof.
  split.
  - apply (proj1 (tryLoaders_first_accepting tt twoSegments));
      [repeat constructor | reflexivity].
  - apply (proj2 (tryLoaders_first_accepting tt twoSegments)).
    repeat constructor.
Defined.

(** ** C3 *)

(** C3: on an object whose class keeps the header's [mapSize] and
    [updateBias] (so [relocatable()] is false), both calls end in
    [panic], not in a returned error. *)
Theorem mapSize_updateBias_panic (cls : ObjectFileClass) (o : ObjectFile)
    (bias_addr : Addr) :
  ov_mapSize cls = None -> ov_updateBias cls = None ->
  relocatable cls o = false ->
  mapSize cls o = Panic mapSizeMsg /\
  updateBias cls o bias_addr = Panic updateBiasMsg.
Proof.
  intros Hm Hu _. unfold mapSize, updateBias. rewrite Hm, Hu. split; reflexivity.
Qed.

Lemma mapSize_updateBias_panic_witness :
  mapSize baseClass twoSegments = Panic mapSizeMsg /\
  updateBias baseClass twoSegments 4096 = Panic updateBiasMsg.
Proof.
  apply mapSize_updateBias_panic; reflexivity.
Defined.

(** ** C4 *)

(** A segment that ends one byte past the top of the address space. *)
Definition topSegment : Segment := mkSegment "top" maxAddr [Byte.x00; Byte.x00] 2.

(** C4 (code bug): for a well-formed segment at [maxAddr] of size 2,
    [maxAddr] lies in [[base, base + size)], but [contains(maxAddr)]
    returns false: the end [seg->base + seg->size] overflows and wraps
    to 1. *)
Theorem contains_top_segment_overflow :
  wfSegment topSegment /\
  base topSegment <= maxAddr < base topSegment + size topSegment /\
  contains (oneSegmentObject [topSegment]) maxAddr = false.
Proof.
  split; [unfold wfSegment, topSegment, maxAddr, addrWidth; cbn [base size]; lia|].
  split; [unfold topSegment; cbn [base size]; lia|].
  vm_compute. reflexivity.
Qed.

(** [contains addr] is true iff some segment has
    [base <= addr < (base + size) mod 2^64]; no offset or mask applied. *)
Theorem contains_iff_segment (o : ObjectFile) (addr : Addr) :
  contains o addr = true <->
  exists seg, In seg (segments o) /\
              base seg <= addr < wrap (base seg + size seg).
Proof. apply containsIn_spec. Qed.

(** ** C5 *)

(** C5 (counterexample): the upper bound fails in unbounded arithmetic: for
    the segment at [maxAddr] of size 2, [maxSegmentAddr] is 1. *)
Lemma segment_bounds_counterexample :
  ~ (forall (o : ObjectFile) (seg : Segment), In seg (segments o) ->
       minSegmentAddr o <= base seg /\
       base seg + size seg <= maxSegmentAddr o).
Proof.
  intros H.
  destruct (H (oneSegmentObject [topSegment]) topSegment
              ltac:(left; reflexivity)) as [_ H2].
  assert (Hm : maxSegmentAddr (oneSegmentObject [topSegment]) = 1)
    by (vm_compute; reflexivity).
  rewrite Hm in H2. unfold topSegment, maxAddr, addrWidth in H2. simpl in H2. lia.
Qed.

(** C5 (amended): every segment satisfies [minSegmentAddr() <= base] and
    [(base + size) mod 2^64 <= maxSegmentAddr()]; no offset or mask is
    applied. *)
Theorem segment_bounds (o : ObjectFile) (seg : Segment) :
  In seg (segments o) ->
  minSegmentAddr o <= base seg /\
  wrap (base seg + size seg) <= maxSegmentAddr o.
Proof.
  intros Hin. split.
  - apply (proj2 (minSegmentAddr_fold_le (segments o) maxAddr)); exact Hin.
  - apply (proj2 (maxSegmentAddr_fold_ge (segments o) 0)); exact Hin.
Qed.

Lemma segment_bounds_witness :
  minSegmentAddr twoSegments <= 4096 /\
  wrap (4096 + 1) <= maxSegmentAddr twoSegments.
Proof.
  apply (segment_bounds twoSegments (mkSegment "data" 4096 [Byte.x03] 1)).
  right; left; reflexivity.
Defined.

(** ** C6 *)

(** C6: with the raw flag set, [createObjectFile] does not consult the
    formats; it yields an object with unknown arch and OS and one segment
    at base 0 whose size is the input length (and holds the whole input). *)
Theorem createObjectFile_raw (formats : list Format) (fname : string)
    (d : list byte) :
  (forall formats', createObjectFile formats' fname d true =
                    createObjectFile formats fname d true) /\
  exists o, createObjectFile formats fname d true = Ok o /\
    getArch o = UnknownArch /\ getOpSys o = UnknownOpSys /\
    exists seg, segments o = [seg] /\ base seg = 0 /\
                size seg = Z.of_nat (List.length d) /\ segBytes seg = d.
Proof.
  split; [reflexivity|].
  exists (rawObject fname d). split; [reflexivity|].
  split; [reflexivity|]. split; [reflexivity|].
  eexists. split; [reflexivity|]. simpl. split; [reflexivity|].
  split; [reflexivity|].
  unfold segBytes; simpl. rewrite Nat2Z.id. apply firstn_all.
Qed.

(** ** C7 *)

(** C7: without an override, [loadWeakSymbols] returns [false] and hands
    back the symbol table and the object unchanged. *)
Theorem loadWeakSymbols_default (cls : ObjectFileClass) (o : ObjectFile)
    (symtab : SymbolTable) (b offset mask : Addr) :
  ov_loadWeakSymbols cls = None ->
  loadWeakSymbols cls o symtab b offset mask = (false, symtab, o).
Proof. intros H. unfold loadWeakSymbols. rewrite H. reflexivity. Qed.

Lemma loadWeakSymbols_default_witness :
  loadWeakSymbols baseClass twoSegments [("main"%string, 16)] 0 0 maxAddr
    = (false, [("main"%string, 16)], twoSegments).
Proof. apply loadWeakSymbols_default. reflexivity. Defined.

(** ** C8 *)

Lemma execOp_base_keeps_tags (op : ObjectFileOp) (o o' : ObjectFile) :
  execOp baseClass op o = Ok o' -> arch o' = arch o /\ opSys o' = opSys o.
Proof.
  destruct op; simpl; intros H; try discriminate H; injection H as <-;
    split; reflexivity.
Qed.

Lemma runOps_base_keeps_tags (ops : list ObjectFileOp) (o o' : ObjectFile) :
  runOps baseClass ops o = Ok o' -> arch o' = arch o /\ opSys o' = opSys o.
Proof.
  revert o; induction ops as [|op rest IH]; intros o; simpl.
  - intros H; injection H as <-; split; reflexivity.
  - destruct (execOp baseClass op o) as [o1| m | m] eqn:E; try discriminate.
    intros H. destruct (IH o1 H) as [Ha Ho].
    destruct (execOp_base_keeps_tags op o o1 E) as [Ha' Ho'].
    split; congruence.
Qed.

(** C8: after construction with arch [a] and OS [os], any sequence of the
    base class's member operations that returns leaves [getArch()] equal
    to [a] and [getOpSys()] equal to [os]. *)
Theorem arch_opSys_fixed (fname : string) (l : Z) (d : list byte)
    (a : Arch) (os : OpSys) (ops : list ObjectFileOp) (o' : ObjectFile) :
  runOps baseClass ops (newObjectFile fname l d a os) = Ok o' ->
  getArch o' = a /\ getOpSys o' = os.
Proof. apply runOps_base_keeps_tags. Qed.

Lemma arch_opSys_fixed_witness :
  getArch (setLoadMask (setLoadOffset (addSegment
    (newObjectFile "vmlinux" 1 [Byte.x7f] Arm64 Linux) "text" 0 [Byte.x7f] 1)
    4096) 255) = Arm64 /\
  getOpSys (setLoadMask (setLoadOffset (addSegment
    (newObjectFile "vmlinux" 1 [Byte.x7f] Arm64 Linux) "text" 0 [Byte.x7f] 1)
    4096) 255) = Linux.
Proof.
  apply (arch_opSys_fixed "vmlinux" 1 [Byte.x7f] Arm64 Linux
           [OpAddSegment "text" 0 [Byte.x7f] 1; OpSetLoadOffset 4096;
            OpLoadWeakSymbols [] 0 0 maxAddr; OpContains 0;
            OpSetLoadMask 255]).
  reflexivity.
Defined.

(** ** C9 *)

(** C9: with no segments, [minSegmentAddr()] is [maxAddr],
    [maxSegmentAddr()] is 0 (so min > max) and [contains] is false
    everywhere. *)
Theorem empty_segment_queries (o : ObjectFile) :
  segments o = [] ->
  minSegmentAddr o = maxAddr /\ maxSegmentAddr o = 0 /\
  maxSegmentAddr o < minSegmentAddr o /\
  forall addr, contains o addr = false.
Proof.
  intros H. unfold minSegmentAddr, maxSegmentAddr, contains. rewrite H. simpl.
  split; [reflexivity|]. split; [reflexivity|].
  split; [unfold maxAddr, addrWidth; lia | reflexivity].
Qed.

Lemma empty_segment_queries_witness :
  minSegmentAddr (newObjectFile "empty" 0 [] UnknownArch UnknownOpSys) = maxAddr /\
  maxSegmentAddr (newObjectFile "empty" 0 [] UnknownArch UnknownOpSys) = 0 /\
  maxSegmentAddr (newObjectFile "empty" 0 [] UnknownArch UnknownOpSys) <
  minSegmentAddr (newObjectFile "empty" 0 [] UnknownArch UnknownOpSys) /\
  (forall addr,
     contains (newObjectFile "empty" 0 [] UnknownArch UnknownOpSys) addr = false).
Proof. apply empty_segment_queries. reflexivity. Defined.

(** ** C10 *)

(** A segment whose end wraps past [2^64], and a second one covering its
    base. *)
Definition wrappingSegment : Segment := mkSegment "wrap" (maxAddr - 1) [] 4.
Definition coverSegment : Segment := mkSegment "cover" (maxAddr - 1) [] 1.

(** C10 (counterexample): [contains] is not false on the whole of a
    wrapping segment: another segment covering [maxAddr - 1] makes
    [contains (maxAddr - 1)] true. *)
Lemma wrapping_contains_counterexample :
  ~ (forall (o : ObjectFile) (seg : Segment) (addr : Addr),
       In seg (segments o) -> wfSegment seg ->
       maxAddr < base seg + size seg ->
       base seg <= addr < base seg + size seg ->
       contains o addr = false).
Proof.
  intros H.
  assert (Hc : contains (oneSegmentObject [wrappingSegment; coverSegment])
                        (maxAddr - 1) = true) by (vm_compute; reflexivity).
  rewrite (H (oneSegmentObject [wrappingSegment; coverSegment]) wrappingSegment
             (maxAddr - 1)) in Hc.
  - discriminate Hc.
  - left; reflexivity.
  - unfold wfSegment, wrappingSegment, maxAddr, addrWidth; cbn [base size]; lia.
  - unfold wrappingSegment, maxAddr, addrWidth; cbn [base size]; lia.
  - unfold wrappingSegment, maxAddr, addrWidth; cbn [base size]; lia.
Qed.

(** C10 (amended): a segment's end is [(base + size) mod 2^64]; when
    [base + size] exceeds [maxAddr] the wrapped end is below [base], that
    segment's test fails for every [addr >= base], so [contains addr] is
    decided by the other segments alone; as sole segment it makes
    [maxSegmentAddr()] the wrapped end. *)
Theorem wrapping_segment_ignored (o : ObjectFile) (pre post : list Segment)
    (seg : Segment) (addr : Addr) :
  segments o = pre ++ seg :: post -> wfSegment seg ->
  maxAddr < base seg + size seg ->
  wrap (base seg + size seg) = base seg + size seg - 2 ^ addrWidth /\
  wrap (base seg + size seg) < base seg /\
  (base seg <= addr -> contains o addr = containsIn (pre ++ post) addr) /\
  (pre = [] -> post = [] -> maxSegmentAddr o = wrap (base seg + size seg)).
Proof.
  intros Hs [Hb Hz] Hover.
  assert (Hw : wrap (base seg + size seg) = base seg + size seg - 2 ^ addrWidth).
  { apply wrap_overflow. unfold maxAddr in *. lia. }
  split; [exact Hw|].
  assert (Hlt : wrap (base seg + size seg) < base seg).
  { rewrite Hw. unfold maxAddr in *. lia. }
  split; [exact Hlt|]. split.
  - intros Hle. unfold contains. rewrite Hs. apply containsIn_skip.
    destruct (Z.leb_spec (base seg) addr); [|lia].
    destruct (Z.ltb_spec addr (wrap (base seg + size seg))); [lia|reflexivity].
  - intros -> ->. unfold maxSegmentAddr. rewrite Hs. simpl.
    pose proof (wrap_range (base seg + size seg)).
    destruct (Z.ltb_spec 0 (wrap (base seg + size seg))); lia.
Qed.

Lemma wrapping_segment_ignored_witness :
  contains (oneSegmentObject [wrappingSegment; coverSegment]) (maxAddr - 1) =
  containsIn [coverSegment] (maxAddr - 1).
Proof.
  apply (wrapping_segment_ignored
           (oneSegmentObject [wrappingSegment; coverSegment]) [] [coverSegment]
           wrappingSegment (maxAddr - 1)).
  - reflexivity.
  - unfold wfSegment, wrappingSegment, maxAddr, addrWidth; cbn [base size]; lia.
  - unfold wrappingSegment, maxAddr, addrWidth; cbn [base size]; lia.
  - unfold wrappingSegment; cbn [base]; lia.
Defined.

(** * Further properties of the segment queries *)

Lemma maxStep_is_max (m e : Z) : (if m <? e then e else m) = Z.max m e.
Proof. destruct (Z.ltb_spec m e); lia. Qed.

Lemma minStep_is_min (b m : Z) : (if b <? m then b else m) = Z.min m b.
Proof. destruct (Z.ltb_spec b m); lia. Qed.

(** [addSegment] extends the bounding box: the new maximum is the larger of
    the old one and the new segment's (wrapped) end. *)
Theorem maxSegmentAddr_addSegment (o : ObjectFile) (nm : string) (b : Addr)
    (d : list byte) (sz : Z) :
  maxSegmentAddr (addSegment o nm b d sz) =
  Z.max (maxSegmentAddr o) (wrap (b + sz)).
Proof.
  unfold maxSegmentAddr, addSegment, setSegments; simpl.
  rewrite fold_left_app. simpl. apply maxStep_is_max.
Qed.

(** [addSegment] lowers the minimum to the new segment's base if smaller. *)
Theorem minSegmentAddr_addSegment (o : ObjectFile) (nm : string) (b : Addr)
    (d : list byte) (sz : Z) :
  minSegmentAddr (addSegment o nm b d sz) = Z.min (minSegmentAddr o) b.
Proof.
  unfold minSegmentAddr, addSegment, setSegments; simpl.
  rewrite fold_left_app. simpl. apply minStep_is_min.
Qed.

(** After [addSegment], [contains] answers true exactly for the old
    segments' addresses and the new segment's wrapped interval. *)
Theorem contains_addSegment (o : ObjectFile) (nm : string) (b : Addr)
    (d : list byte) (sz : Z) (addr : Addr) :
  contains (addSegment o nm b d sz) addr =
  (contains o addr || ((b <=? addr) && (addr <? wrap (b + sz))))%bool.
Proof.
  unfold contains, addSegment, setSegments; simpl.
  induction (segments o) as [|s rest IH]; simpl.
  - destruct ((b <=? addr) && (addr <? wrap (b + sz)))%bool; reflexivity.
  - destruct ((base s <=? addr) && (addr <? wrap (base s + size s)))%bool;
      [reflexivity | exact IH].
Qed.

(** An address [contains] accepts lies inside the bounding box
    [[minSegmentAddr(), maxSegmentAddr())]. *)
Theorem contains_within_bounds (o : ObjectFile) (addr : Addr) :
  contains o addr = true ->
  minSegmentAddr o <= addr < maxSegmentAddr o.
Proof.
  intros H. apply contains_iff_segment in H as (seg & Hin & Hr).
  destruct (segment_bounds o seg Hin). lia.
Qed.

Lemma contains_within_bounds_witness :
  minSegmentAddr twoSegments <= 17 < maxSegmentAddr twoSegments.
Proof. apply contains_within_bounds. vm_compute. reflexivity. Defined.

(** For segments whose end does not pass [maxAddr], [contains] is exactly
    membership in some [[base, base + size)]. *)
Theorem contains_iff_interval (o : ObjectFile) (addr : Addr) :
  Forall (fun seg => wfSegment seg /\ base seg + size seg <= maxAddr)
         (segments o) ->
  (contains o addr = true <->
   exists seg, In seg (segments o) /\ base seg <= addr < base seg + size seg).
Proof.
  intros Hall. rewrite contains_iff_segment.
  split; intros (seg & Hin & Hr); exists seg; split; try exact Hin;
    rewrite Forall_forall in Hall; destruct (Hall seg Hin) as [[Hb Hz] Hle];
    unfold wrap, maxAddr in *; rewrite Z.mod_small in *; lia.
Qed.

Lemma contains_iff_interval_witness :
  contains twoSegments 17 = true <->
  exists seg, In seg (segments twoSegments) /\
              base seg <= 17 < base seg + size seg.
Proof.
  apply contains_iff_interval.
  repeat constructor; unfold maxAddr, addrWidth; simpl; lia.
Defined.

Lemma fold_max_perm (l l' : list Segment) (m : Z) :
  Permutation l l' ->
  fold_left (fun max seg =>
               let end_ := wrap (base seg + size seg) in
               if max <? end_ then end_ else max) l m =
  fold_left (fun max seg =>
               let end_ := wrap (base seg + size seg) in
               if max <? end_ then end_ else max) l' m.
Proof.
  intros Hp; revert m; induction Hp; intros m; simpl.
  - reflexivity.
  - apply IHHp.
  - rewrite !maxStep_is_max. f_equal. lia.
  - rewrite IHHp1. apply IHHp2.
Qed.

Lemma fold_min_perm (l l' : list Segment) (m : Z) :
  Permutation l l' ->
  fold_left (fun min seg => if base seg <? min then base seg else min) l m =
  fold_left (fun min seg => if base seg <? min then base seg else min) l' m.
Proof.
  intros Hp; revert m; induction Hp; intros m; simpl.
  - reflexivity.
  - apply IHHp.
  - rewrite !minStep_is_min. f_equal. lia.
  - rewrite IHHp1. apply IHHp2.
Qed.

(** The three segment queries do not depend on the order of the segment
    vector. *)
Theorem segment_queries_order_independent (o o' : ObjectFile) :
  Permutation (segments o) (segments o') ->
  maxSegmentAddr o = maxSegmentAddr o' /\
  minSegmentAddr o = minSegmentAddr o' /\
  (forall addr, contains o addr = contains o' addr).
Proof.
  intros Hp. split; [apply fold_max_perm; exact Hp|].
  split; [apply fold_min_perm; exact Hp|].
  intros addr. apply Bool.eq_true_iff_eq.
  rewrite !contains_iff_segment.
  split; intros (seg & Hin & Hr); exists seg; split; try exact Hr.
  - exact (Permutation_in _ Hp Hin).
  - exact (Permutation_in _ (Permutation_sym Hp) Hin).
Qed.

Definition twoSegmentsSwapped : ObjectFile :=
  setSegments twoSegments (rev (segments twoSegments)).

Lemma segment_queries_order_independent_witness :
  maxSegmentAddr twoSegments = maxSegmentAddr twoSegmentsSwapped /\
  minSegmentAddr twoSegments = minSegmentAddr twoSegmentsSwapped /\
  (forall addr, contains twoSegments addr = contains twoSegmentsSwapped addr).
Proof.
  apply segment_queries_order_independent. apply Permutation_rev.
Defined.

Lemma fold_max_attained (segs : list Segment) (m : Z) :
  fold_left (fun max seg =>
               if max <? wrap (base seg + size seg)
               then wrap (base seg + size seg) else max) segs m = m \/
  exists seg, In seg segs /\
    fold_left (fun max seg =>
                 if max <? wrap (base seg + size seg)
                 then wrap (base seg + size seg) else max) segs m =
    wrap (base seg + size seg).
Proof.
  revert m; induction segs as [|s rest IH]; intros m; simpl; [left; reflexivity|].
  rewrite maxStep_is_max.
  destruct (IH (Z.max m (wrap (base s + size s)))) as [Hr|(seg & Hin & Hr)].
  - rewrite Hr. destruct (Z.max_spec m (wrap (base s + size s))) as [[_ H]|[_ H]];
      rewrite H.
    + right; exists s; split; [left|]; reflexivity.
    + left; reflexivity.
  - right; exists seg; split; [right; exact Hin | exact Hr].
Qed.

Lemma fold_min_attained (segs : list Segment) (m : Z) :
  fold_left (fun min seg => if base seg <? min then base seg else min) segs m = m
  \/ exists seg, In seg segs /\
    fold_left (fun min seg => if base seg <? min then base seg else min) segs m
    = base seg.
Proof.
  revert m; induction segs as [|s rest IH]; intros m; simpl; [left; reflexivity|].
  rewrite minStep_is_min.
  destruct (IH (Z.min m (base s))) as [Hr|(seg & Hin & Hr)].
  - rewrite Hr. destruct (Z.min_spec m (base s)) as [[_ H]|[_ H]]; rewrite H.
    + left; reflexivity.
    + right; exists s; split; [left|]; reflexivity.
  - right; exists seg; split; [right; exact Hin | exact Hr].
Qed.

(** On a non-empty segment vector, [maxSegmentAddr()] is the wrapped end
    of some segment, and, when every base is a 64-bit value,
    [minSegmentAddr()] is the base of some segment. *)
Theorem segment_queries_attained (o : ObjectFile) :
  segments o <> [] ->
  Forall (fun seg => 0 <= base seg <= maxAddr) (segments o) ->
  (exists seg, In seg (segments o) /\
               maxSegmentAddr o = wrap (base seg + size seg)) /\
  (exists seg, In seg (segments o) /\ minSegmentAddr o = base seg).
Proof.
  intros Hne Hall.
  assert (Hex : exists s0, In s0 (segments o))
    by (destruct (segments o); [congruence | eexists; left; reflexivity]).
  destruct Hex as [s0 Hin0].
  split.
  - destruct (fold_max_attained (segments o) 0) as [H0|H].
    + exists s0. split; [exact Hin0|].
      assert (Hm : maxSegmentAddr o = 0) by exact H0.
      assert (Hge : wrap (base s0 + size s0) <= maxSegmentAddr o)
        by exact (proj2 (maxSegmentAddr_fold_ge (segments o) 0) s0 Hin0).
      pose proof (wrap_range (base s0 + size s0)). lia.
    + exact H.
  - destruct (fold_min_attained (segments o) maxAddr) as [H0|H].
    + exists s0. split; [exact Hin0|].
      pose proof (proj2 (minSegmentAddr_fold_le (segments o) maxAddr) s0 Hin0).
      rewrite Forall_forall in Hall.
      pose proof (Hall s0 Hin0).
      unfold minSegmentAddr. lia.
    + exact H.
Qed.

Lemma segment_queries_attained_witness :
  (exists seg, In seg (segments twoSegments) /\
               maxSegmentAddr twoSegments = wrap (base seg + size seg)) /\
  (exists seg, In seg (segments twoSegments) /\
               minSegmentAddr twoSegments = base seg).
Proof.
  apply segment_queries_attained; [discriminate|].
  repeat constructor; unfold maxAddr, addrWidth; simpl; lia.
Defined.

(** The default [loadMask], [maxAddr], masks nothing: an object whose mask
    is still the default places each segment at [(base + loadOffset) mod
    2^64]. *)
Theorem default_loadMask_no_masking (o : ObjectFile) (seg : Segment) :
  loadMask o = maxAddr ->
  loadAddr o seg = wrap (base seg + loadOffset o).
Proof.
  intros H. unfold loadAddr. rewrite H.
  replace maxAddr with (Z.ones addrWidth)
    by (unfold maxAddr; rewrite Z.ones_equiv; lia).
  rewrite Z.land_ones by (unfold addrWidth; lia).
  unfold wrap. apply Z.mod_mod. unfold addrWidth; lia.
Qed.

Lemma default_loadMask_no_masking_witness :
  loadAddr (setLoadOffset (addSegment (newObjectFile "k" 0 [] Arm64 Linux)
             "text" (maxAddr - 15) [] 32) 32) (mkSegment "text" (maxAddr - 15) [] 32)
  = wrap (maxAddr - 15 + 32).
Proof. apply default_loadMask_no_masking. reflexivity. Defined.
